(** * acti/hardcoded: the hardcoded interference model

    A shallow embedding of [acti/hardcoded/apps.go]: the enumeration
    [appCategory] with its [String] and [parseAppCategory] conversions, the
    global [slowDowns] matrix, and the two methods of [HardcodedSlowDowns]
    ([Attack] and [ToInt64Multiplier]).

    Go's [int64] is [Z] (the code does no arithmetic on categories), Go's
    [float64] is the kernel's binary64 [float], Go's [map] is stdpp's [gmap]
    read with Go's zero-value rule for absent keys, and a Go pointer is an
    [option] whose [None] is [nil]. The functions are embedded twice: as
    functions of their arguments, and as state transformers over the
    package variable and the objects allocated by [New], for the properties
    that speak of effects and of sequences of calls. *)

From Stdlib Require Import ZArith String List PrimFloat.
From stdpp Require Import base option gmap strings.

Set Warnings "-inexact-float".

Local Open Scope Z_scope.
Local Open Scope string_scope.

(** ** Go values *)

(** An [error] value carries the message built by [fmt.Errorf]; the [nil]
    error is [None]. *)
Definition error : Type := string.

(** [m[k]] on a Go map: the stored value, or the zero value of the element
    type when the key is absent (also when the map itself is [nil], which is
    indistinguishable from the empty map for reads). *)
Definition index {K V : Type} `{Countable K} (zero : V) (m : gmap K V) (k : K) : V :=
  match m !! k with
  | Some v => v
  | None => zero
  end.

(** What a call does: it returns a value, or it panics on a [nil]
    dereference. *)
Inductive outcome (A : Type) : Type :=
  | Returns (a : A)
  | Panics.
Arguments Returns {A} a.
Arguments Panics {A}.

(** ** appCategory *)

Definition appCategory : Type := Z.

Definition catA : appCategory := 0.
Definition catB : appCategory := 1.
Definition catC : appCategory := 2.
Definition catD : appCategory := 3.
Definition catE : appCategory := 4.

(** The closed set of known categories, in declaration order. *)
Definition categories : list appCategory := [catA; catB; catC; catD; catE].

(** [func (ac appCategory) String() string] *)
Definition String (ac : appCategory) : string :=
  if Z.eqb ac catA then "catA"
  else if Z.eqb ac catB then "catB"
  else if Z.eqb ac catC then "catC"
  else if Z.eqb ac catD then "catD"
  else if Z.eqb ac catE then "catE"
  else "UNKNOWN".

(** [fmt.Errorf("unknown application category: '%s'", category)] *)
Definition unknownCategory (category : string) : error :=
  "unknown application category: '" ++ category ++ "'".

(** [func parseAppCategory(category string) (appCategory, error)] *)
Definition parseAppCategory (category : string) : appCategory * option error :=
  if String.eqb category "catA" then (catA, None)
  else if String.eqb category "catB" then (catB, None)
  else if String.eqb category "catC" then (catC, None)
  else if String.eqb category "catD" then (catD, None)
  else if String.eqb category "catE" then (catE, None)
  else (-1, Some (unknownCategory category)).

(** ** slowDownMatrix *)

Definition slowDowns : gmap appCategory (gmap appCategory float) :=
  {[ catA := {[ catA := 1.15%float;
                catB := 2.43%float;
                catC := 1.22%float;
                catD := 1.34%float;
                catE := 1.41%float ]};
     catB := {[ catA := 2.19%float;
                catB := 1.26%float;
                catC := 1.48%float;
                catD := 3.10%float;
                catE := 1.37%float ]};
     catC := {[ catA := 1.21%float;
                catB := 3.09%float;
                catC := 2.12%float;
                catD := 1.18%float;
                catE := 1.53%float ]};
     catD := {[ catA := 1.47%float;
                catB := 1.24%float;
                catC := 1.76%float;
                catD := 2.25%float;
                catE := 1.10%float ]};
     catE := {[ catA := 3.15%float;
                catB := 1.74%float;
                catC := 1.16%float;
                catD := 1.27%float;
                catE := 2.53%float ]} ]}.

(** [func (ac appCategory) attack(occupant appCategory) float64]:
    [slowDowns[ac][occupant]], two map reads. *)
Definition attack (ac occupant : appCategory) : float :=
  index 0%float (index ∅ slowDowns ac) occupant.

(** ** HardcodedSlowDowns *)

Record HardcodedSlowDowns : Type := { actiLabelKey : string }.

(** [func New(actiLabelKey string) *HardcodedSlowDowns] *)
Definition New (key : string) : option HardcodedSlowDowns :=
  Some {| actiLabelKey := key |}.

(** The part of [corev1.Pod] the model reads: its [Labels]. *)
Record Pod : Type := { Labels : gmap string string }.

(** [func (m *HardcodedSlowDowns) Attack(attacker, occupant *corev1.Pod)
    (float64, error)] *)
Definition Attack (m : option HardcodedSlowDowns) (attacker occupant : option Pod)
  : outcome (float * option error) :=
  match occupant, m with
  | Some occ, Some hsd =>
      let '(occPodCategory, _) :=
        parseAppCategory (index "" (Labels occ) (actiLabelKey hsd)) in
      match attacker with
      | Some att =>
          let '(newPodCategory, err) :=
            parseAppCategory (index "" (Labels att) (actiLabelKey hsd)) in
          match err with
          | Some e => Returns ((-1)%float, Some e)
          | None => Returns (attack newPodCategory occPodCategory, None)
          end
      | None => Panics
      end
  | _, _ => Panics
  end.

Definition toInt64Multiplier : float := 100%float.

(** [func (_ *HardcodedSlowDowns) ToInt64Multiplier() float64]: the receiver
    is never dereferenced. *)
Definition ToInt64Multiplier (_ : option HardcodedSlowDowns) : float :=
  toInt64Multiplier.

(** ** Reading a pod's category label *)

(** [pod.Labels[m.actiLabelKey]], the string [Attack] hands to
    [parseAppCategory]; a pod without the label reads as the empty string. *)
Definition label (hsd : HardcodedSlowDowns) (pod : Pod) : string :=
  index "" (Labels pod) (actiLabelKey hsd).

(** The rendered names of the closed set. *)
Definition canonicalNames : list string := map String categories.

(** A pod carrying a single label. *)
Definition labelled (key value : string) : Pod :=
  {| Labels := {[ key := value ]} |}.

(** The model the scheduler plugin would build for the label key "acti". *)
Definition model : HardcodedSlowDowns := {| actiLabelKey := "acti" |}.

(** [cells P]: every cell written in [slowDowns] satisfies [P]. *)
Definition cells (P : float -> Prop) : Prop :=
  map_Forall (fun _ row => map_Forall (fun _ v => P v) row) slowDowns.

(** ** The package as a stateful program *)

(** What a function of the package can reach besides its arguments: the
    package variable [slowDowns] (a Go [var], so assignable), and the
    [HardcodedSlowDowns] objects that [New] has allocated, in the order of
    allocation. *)
Record world : Type := {
  slowDownsVar : gmap appCategory (gmap appCategory float);
  objects : list HardcodedSlowDowns
}.

(** A [*HardcodedSlowDowns] in a world: nil, or the address of an object. *)
Definition pointer : Type := option nat.

(** The world once the package is initialised: the variable holds the
    literal and nothing is allocated. *)
Definition initial : world := {| slowDownsVar := slowDowns; objects := [] |}.

(** A function body: from the world before the call to the outcome of the
    call and the world after it. *)
Definition body (A : Type) : Type := world -> outcome A * world.

(** [New] in a world: the object is allocated at the next address. *)
Definition NewIn (key : string) : body pointer :=
  fun w =>
    (Returns (Some (length (objects w))),
     {| slowDownsVar := slowDownsVar w;
        objects := (objects w ++ [ {| actiLabelKey := key |} ])%list |}).

(** [attack] in a world: the two map reads go to the package variable. *)
Definition attackIn (w : world) (ac occupant : appCategory) : float :=
  index 0%float (index ∅ (slowDownsVar w) ac) occupant.

(** [Attack] in a world: the receiver is read from the heap (an address
    that [New] did not hand out faults like nil does); nothing is written. *)
Definition AttackIn (m : pointer) (attacker occupant : option Pod)
  : body (float * option error) :=
  fun w =>
    (match occupant, m ≫= (fun l => objects w !! l) with
     | Some occ, Some hsd =>
         let '(occPodCategory, _) :=
           parseAppCategory (index "" (Labels occ) (actiLabelKey hsd)) in
         match attacker with
         | Some att =>
             let '(newPodCategory, err) :=
               parseAppCategory (index "" (Labels att) (actiLabelKey hsd)) in
             match err with
             | Some e => Returns ((-1)%float, Some e)
             | None => Returns (attackIn w newPodCategory occPodCategory, None)
             end
         | None => Panics
         end
     | _, _ => Panics
     end, w).

(** [ToInt64Multiplier] in a world: the body is [return toInt64Multiplier];
    it names neither its receiver nor any variable. *)
Definition ToInt64MultiplierIn (_ : pointer) : body float :=
  fun w => (Returns toInt64Multiplier, w).

(** The calls a client of the package can make, and what they answer. *)
Inductive call : Type :=
  | CallNew (key : string)
  | CallAttack (m : pointer) (attacker occupant : option Pod)
  | CallToInt64Multiplier (m : pointer).

Inductive reply : Type :=
  | NewReply (p : pointer)
  | AttackReply (r : float * option error)
  | MultiplierReply (x : float).

Definition answer {A : Type} (tag : A -> reply) (r : outcome A * world)
  : outcome reply * world :=
  match r with
  | (Returns a, w) => (Returns (tag a), w)
  | (Panics, w) => (Panics, w)
  end.

Definition perform (c : call) : body reply :=
  fun w =>
    match c with
    | CallNew key => answer NewReply (NewIn key w)
    | CallAttack m attacker occupant =>
        answer AttackReply (AttackIn m attacker occupant w)
    | CallToInt64Multiplier m =>
        answer MultiplierReply (ToInt64MultiplierIn m w)
    end.

(** A sequence of calls, one after the other; a panic ends the program. *)
Fixpoint run (cs : list call) (w : world) : outcome (list reply) * world :=
  match cs with
  | [] => (Returns [], w)
  | c :: cs' =>
      match perform c w with
      | (Returns r, w1) =>
          match run cs' w1 with
          | (Returns rs, w2) => (Returns (r :: rs), w2)
          | (Panics, w2) => (Panics, w2)
          end
      | (Panics, w1) => (Panics, w1)
      end
  end.

(** * Properties *)

Example canonicalNames_eq :
  canonicalNames = ["catA"; "catB"; "catC"; "catD"; "catE"].
Proof. reflexivity. Qed.

Example attack_A_B : attack catA catB = 2.43%float.
Proof. reflexivity. Qed.

Example attack_A_unknown : attack catA (-1) = 0%float.
Proof. reflexivity. Qed.

Example label_labelled :
  label {| actiLabelKey := "acti" |} (labelled "acti" "catC") = "catC".
Proof. reflexivity. Qed.

Example label_absent :
  label {| actiLabelKey := "acti" |} (labelled "other" "catC") = "".
Proof. reflexivity. Qed.

(** ** The category registry *)

Section Registry.

Ltac split_In H :=
  simpl in H;
  repeat (destruct H as [H | H]; [try subst | ]);
  try contradiction.

(** The switch of [parseAppCategory], one disjunct per arm. *)
Lemma parseAppCategory_cases (s : string) :
  (s = "catA" /\ parseAppCategory s = (catA, None)) \/
  (s = "catB" /\ parseAppCategory s = (catB, None)) \/
  (s = "catC" /\ parseAppCategory s = (catC, None)) \/
  (s = "catD" /\ parseAppCategory s = (catD, None)) \/
  (s = "catE" /\ parseAppCategory s = (catE, None)) \/
  (~ In s canonicalNames /\
   parseAppCategory s = (-1, Some (unknownCategory s))).
Proof.
  unfold parseAppCategory.
  destruct (String.eqb_spec s "catA") as [-> | nA]; [tauto | ].
  destruct (String.eqb_spec s "catB") as [-> | nB]; [tauto | ].
  destruct (String.eqb_spec s "catC") as [-> | nC]; [tauto | ].
  destruct (String.eqb_spec s "catD") as [-> | nD]; [tauto | ].
  destruct (String.eqb_spec s "catE") as [-> | nE]; [tauto | ].
  do 5 right. split; [ | reflexivity].
  rewrite canonicalNames_eq. simpl. intros [H | [H | [H | [H | [H | []]]]]]; congruence.
Qed.

Lemma parseAppCategory_known (s : string) :
  In s canonicalNames ->
  exists c, In c categories /\ s = String c /\ parseAppCategory s = (c, None).
Proof.
  intros H. rewrite canonicalNames_eq in H. split_In H.
  - exists catA. simpl. tauto.
  - exists catB. simpl. tauto.
  - exists catC. simpl. tauto.
  - exists catD. simpl. tauto.
  - exists catE. simpl. tauto.
Qed.

Lemma parseAppCategory_unknown (s : string) :
  ~ In s canonicalNames ->
  parseAppCategory s = (-1, Some (unknownCategory s)).
Proof.
  intros H.
  destruct (parseAppCategory_cases s)
    as [[-> _] | [[-> _] | [[-> _] | [[-> _] | [[-> _] | [_ E]]]]]];
    try exact E; exfalso; apply H; rewrite canonicalNames_eq; simpl; tauto.
Qed.

Lemma parseAppCategory_String (c : appCategory) :
  In c categories -> parseAppCategory (String c) = (c, None).
Proof. intros H. split_In H; reflexivity. Qed.

(** C6. Round trip: for every category [c] of the closed set, parsing
    the rendered name of [c] succeeds (the error is nil) and gives back
    [c]. *)
Theorem parse_render_roundtrip (c : appCategory) :
  In c categories -> parseAppCategory (String c) = (c, None).
Proof. exact (parseAppCategory_String c). Qed.

Lemma parse_render_roundtrip_witness :
  In catD categories /\ parseAppCategory (String catD) = (catD, None).
Proof.
  split; [simpl; tauto | apply (parse_render_roundtrip catD); simpl; tauto].
Defined.

(** C7. [parseAppCategory] is defined on every string; its error is nil
    exactly when the input is one of "catA", "catB", "catC", "catD",
    "catE"; on every other string it returns the error whose message
    quotes that string, e.g. on "catF", on the empty string and on
    "CatA". *)
Theorem parse_succeeds_iff_canonical (s : string) :
  (snd (parseAppCategory s) = None <->
   In s ["catA"; "catB"; "catC"; "catD"; "catE"]) /\
  (~ In s ["catA"; "catB"; "catC"; "catD"; "catE"] ->
   parseAppCategory s =
     (-1, Some ("unknown application category: '" ++ s ++ "'"))) /\
  parseAppCategory "catF" =
    (-1, Some "unknown application category: 'catF'") /\
  parseAppCategory "" = (-1, Some "unknown application category: ''") /\
  parseAppCategory "CatA" =
    (-1, Some "unknown application category: 'CatA'").
Proof.
  split; [ | split; [ | repeat split]].
  - destruct (parseAppCategory_cases s)
      as [[-> E] | [[-> E] | [[-> E] | [[-> E] | [[-> E] | [N E]]]]]];
      rewrite E; simpl; try tauto.
    split; [discriminate | ]. intros H. exfalso. apply N. exact H.
  - intros N. apply parseAppCategory_unknown. exact N.
Qed.

Lemma parse_succeeds_iff_canonical_witness :
  snd (parseAppCategory "catB") = None /\
  parseAppCategory "catb" =
    (-1, Some "unknown application category: 'catb'").
Proof.
  split.
  - apply (proj1 (parse_succeeds_iff_canonical "catB")). simpl. tauto.
  - apply (proj1 (proj2 (parse_succeeds_iff_canonical "catb"))).
    simpl. intros [H | [H | [H | [H | [H | []]]]]]; discriminate H.
Defined.

(** C10. [String] is defined on every value of the type: on the five
    categories it gives the canonical name, which is the string that
    [parseAppCategory] maps to that category, and on every value outside
    the closed set it gives "UNKNOWN". *)
Theorem render_total_inverse_sentinel :
  String catA = "catA" /\ String catB = "catB" /\ String catC = "catC" /\
  String catD = "catD" /\ String catE = "catE" /\
  (forall (s : string) (c : appCategory),
     parseAppCategory s = (c, None) -> String c = s) /\
  (forall c : appCategory, ~ In c categories -> String c = "UNKNOWN").
Proof.
  do 5 (split; [reflexivity | ]). split.
  - intros s c E.
    destruct (parseAppCategory_cases s)
      as [[-> F] | [[-> F] | [[-> F] | [[-> F] | [[-> F] | [_ F]]]]]];
      rewrite F in E; inversion E; reflexivity.
  - intros c N. unfold String.
    destruct (Z.eqb_spec c catA) as [-> | _]; [exfalso; apply N; simpl; tauto | ].
    destruct (Z.eqb_spec c catB) as [-> | _]; [exfalso; apply N; simpl; tauto | ].
    destruct (Z.eqb_spec c catC) as [-> | _]; [exfalso; apply N; simpl; tauto | ].
    destruct (Z.eqb_spec c catD) as [-> | _]; [exfalso; apply N; simpl; tauto | ].
    destruct (Z.eqb_spec c catE) as [-> | _]; [exfalso; apply N; simpl; tauto | ].
    reflexivity.
Qed.

Lemma render_total_inverse_sentinel_witness :
  String catC = "catC" /\ String (-1) = "UNKNOWN" /\ String 5 = "UNKNOWN".
Proof.
  destruct render_total_inverse_sentinel as (_ & _ & _ & _ & _ & inv & out).
  split; [apply (inv "catC" catC); reflexivity | ].
  split; apply out; simpl; intros [H | [H | [H | [H | [H | []]]]]];
    discriminate H.
Defined.

End Registry.

(** ** The slowdown table *)

Section Table.

Lemma cells_lookup (P : float -> Prop) :
  cells P ->
  forall (a o : appCategory) (row : gmap appCategory float) (v : float),
    slowDowns !! a = Some row -> row !! o = Some v -> P v.
Proof.
  intros H a o row v Ha Ho.
  exact (H a row Ha o v Ho).
Qed.

Lemma slowDowns_nonneg : cells (fun v => (0 <=? v)%float = true).
Proof.
  unfold cells, slowDowns.
  repeat match goal with
    | |- map_Forall _ (<[ _ := _ ]> _) => apply map_Forall_insert_2
    | |- map_Forall _ {[ _ := _ ]} => apply map_Forall_singleton
    | |- _ = true => reflexivity
    end.
Qed.

(** A row exists exactly for the five categories, and so does a cell in
    each row. *)
Lemma slowDowns_dense (a o : appCategory) :
  In a categories -> In o categories ->
  exists (row : gmap appCategory float) (v : float),
    slowDowns !! a = Some row /\ row !! o = Some v /\ attack a o = v.
Proof.
  intros Ha Ho. simpl in Ha, Ho.
  destruct Ha as [<- | [<- | [<- | [<- | [<- | []]]]]];
    destruct Ho as [<- | [<- | [<- | [<- | [<- | []]]]]];
    (eexists; eexists; split; [reflexivity | split; reflexivity]).
Qed.

(** No row has a cell for the category [-1] that a failed parse returns. *)
Lemma slowDowns_no_minus_one (a : appCategory) :
  In a categories ->
  exists row : gmap appCategory float,
    slowDowns !! a = Some row /\ row !! (-1) = None /\
    attack a (-1) = 0%float.
Proof.
  intros Ha. simpl in Ha.
  destruct Ha as [<- | [<- | [<- | [<- | [<- | []]]]]];
    (eexists; split; [reflexivity | split; reflexivity]).
Qed.

Lemma attack_nonneg (a o : appCategory) :
  In a categories -> (0 <=? attack a o)%float = true.
Proof.
  intros Ha.
  destruct (slowDowns_no_minus_one a Ha) as (row & Hrow & _ & _).
  unfold attack, index at 2. rewrite Hrow. unfold index.
  destruct (row !! o) as [v | ] eqn:Ho; [ | reflexivity].
  exact (cells_lookup _ slowDowns_nonneg a o row v Hrow Ho).
Qed.

End Table.

(** ** The interference model *)

Section Model.

Variable hsd : HardcodedSlowDowns.
Variables att occ : Pod.

(** [Attack] on three non-nil pointers, by the outcome of the attacker's
    parse. *)
Lemma Attack_known_attacker (a : appCategory) :
  parseAppCategory (label hsd att) = (a, None) ->
  Attack (Some hsd) (Some att) (Some occ) =
    Returns (attack a (fst (parseAppCategory (label hsd occ))), None).
Proof.
  unfold Attack, label. intros E.
  destruct (parseAppCategory (index "" (Labels occ) (actiLabelKey hsd)))
    as [o eo].
  rewrite E. reflexivity.
Qed.

Lemma Attack_failed_attacker (a : appCategory) (e : error) :
  parseAppCategory (label hsd att) = (a, Some e) ->
  Attack (Some hsd) (Some att) (Some occ) = Returns ((-1)%float, Some e).
Proof.
  unfold Attack, label. intros E.
  destruct (parseAppCategory (index "" (Labels occ) (actiLabelKey hsd)))
    as [o eo].
  rewrite E. reflexivity.
Qed.

(** C1. For every pair [(a, o)] of the closed set, [Attack] on an attacker
    labelled [String a] and an occupant labelled [String o] returns, with
    a nil error, the cell that [slowDowns] holds at row [a], key [o]; with
    attacker "catA" and occupant "catB" that is 2.43, with attacker "catB"
    and occupant "catD" it is 3.10. *)
Theorem Attack_table_complete :
  (forall a o : appCategory,
     In a categories -> In o categories ->
     label hsd att = String a -> label hsd occ = String o ->
     exists (row : gmap appCategory float) (v : float),
       slowDowns !! a = Some row /\ row !! o = Some v /\
       Attack (Some hsd) (Some att) (Some occ) = Returns (v, None)) /\
  (label hsd att = "catA" -> label hsd occ = "catB" ->
   Attack (Some hsd) (Some att) (Some occ) = Returns (2.43%float, None)) /\
  (label hsd att = "catB" -> label hsd occ = "catD" ->
   Attack (Some hsd) (Some att) (Some occ) = Returns (3.10%float, None)).
Proof.
  split; [ | split].
  - intros a o Ha Ho La Lo.
    destruct (slowDowns_dense a o Ha Ho) as (row & v & Hrow & Hv & Hatt).
    exists row, v. split; [exact Hrow | split; [exact Hv | ]].
    rewrite (Attack_known_attacker a).
    + rewrite Lo, (parseAppCategory_String o Ho). simpl. rewrite Hatt.
      reflexivity.
    + rewrite La. apply parseAppCategory_String. exact Ha.
  - intros La Lo. rewrite (Attack_known_attacker catA).
    + rewrite Lo. reflexivity.
    + rewrite La. reflexivity.
  - intros La Lo. rewrite (Attack_known_attacker catB).
    + rewrite Lo. reflexivity.
    + rewrite La. reflexivity.
Qed.

(** C2. When the attacker's label is not a canonical name, whatever the
    occupant's label, [Attack] returns -1 together with the error whose
    message quotes the attacker's label (for the attacker label
    "unknownCat" and the occupant label "catA", the message quotes
    "unknownCat"); when the attacker's label is a canonical name, the
    error [Attack] returns is nil. *)
Theorem Attack_validates_attacker :
  (~ In (label hsd att) canonicalNames ->
   Attack (Some hsd) (Some att) (Some occ) =
     Returns ((-1)%float,
              Some ("unknown application category: '" ++ label hsd att ++ "'"))) /\
  (label hsd att = "unknownCat" -> label hsd occ = "catA" ->
   Attack (Some hsd) (Some att) (Some occ) =
     Returns ((-1)%float,
              Some "unknown application category: 'unknownCat'")) /\
  (In (label hsd att) canonicalNames ->
   exists v : float,
     Attack (Some hsd) (Some att) (Some occ) = Returns (v, None)).
Proof.
  split; [ | split].
  - intros N. apply (Attack_failed_attacker (-1)).
    apply parseAppCategory_unknown. exact N.
  - intros La _. apply (Attack_failed_attacker (-1)).
    rewrite La. reflexivity.
  - intros K.
    destruct (parseAppCategory_known _ K) as (a & _ & _ & E).
    eexists. apply (Attack_known_attacker a). exact E.
Qed.

(** C3. When the attacker's label is a canonical name, [Attack] returns
    with a nil error for every occupant, also one whose label is not a
    canonical name: the occupant's parse error is dropped. *)
Theorem Attack_tolerates_occupant :
  In (label hsd att) canonicalNames ->
  exists v : float,
    Attack (Some hsd) (Some att) (Some occ) = Returns (v, None).
Proof.
  intros K.
  destruct (parseAppCategory_known _ K) as (a & _ & _ & E).
  exists (attack a (fst (parseAppCategory (label hsd occ)))).
  apply Attack_known_attacker. exact E.
Qed.

(** C4. When the attacker's label is a canonical name and the occupant's
    is not, the occupant parses to -1, the attacker's row of [slowDowns]
    has no cell at -1, and [Attack] returns 0.0 with a nil error. *)
Theorem Attack_unknown_occupant_zero :
  In (label hsd att) canonicalNames ->
  ~ In (label hsd occ) canonicalNames ->
  exists (a : appCategory) (row : gmap appCategory float),
    parseAppCategory (label hsd att) = (a, None) /\
    fst (parseAppCategory (label hsd occ)) = -1 /\
    slowDowns !! a = Some row /\ row !! (-1) = None /\
    Attack (Some hsd) (Some att) (Some occ) = Returns (0%float, None).
Proof.
  intros K N.
  destruct (parseAppCategory_known _ K) as (a & Ha & _ & E).
  destruct (slowDowns_no_minus_one a Ha) as (row & Hrow & Hnone & Hzero).
  exists a, row.
  rewrite (Attack_known_attacker a E).
  rewrite (parseAppCategory_unknown _ N). simpl. rewrite Hzero.
  repeat split; assumption.
Qed.

End Model.

Section ModelFacts.

Lemma parseAppCategory_nil_error (s : string) (c : appCategory) :
  parseAppCategory s = (c, None) -> In c categories.
Proof.
  intros E.
  destruct (parseAppCategory_cases s)
    as [[_ F] | [[_ F] | [[_ F] | [[_ F] | [[_ F] | [_ F]]]]]];
    rewrite F in E; inversion E; simpl; tauto.
Qed.

(** C5. The table is directional: there are categories [a] and [o] of the
    closed set whose two slowdowns compare unequal; [Attack] with attacker
    "catA" and occupant "catB" returns 2.43 and with the roles swapped it
    returns 2.19, two different numbers. *)
Theorem Attack_directional (hsd : HardcodedSlowDowns) (podA podB : Pod) :
  label hsd podA = "catA" -> label hsd podB = "catB" ->
  Attack (Some hsd) (Some podA) (Some podB) = Returns (2.43%float, None) /\
  Attack (Some hsd) (Some podB) (Some podA) = Returns (2.19%float, None) /\
  (2.43 =? 2.19)%float = false /\
  exists a o : appCategory,
    In a categories /\ In o categories /\
    (attack a o =? attack o a)%float = false.
Proof.
  intros LA LB. split; [ | split; [ | split]].
  - rewrite (Attack_known_attacker hsd podA podB catA).
    + rewrite LB. reflexivity.
    + rewrite LA. reflexivity.
  - rewrite (Attack_known_attacker hsd podB podA catB).
    + rewrite LA. reflexivity.
    + rewrite LB. reflexivity.
  - reflexivity.
  - exists catA, catB. simpl. split; [tauto | split; [tauto | reflexivity]].
Qed.

(** C8. Every cell of [slowDowns] is at least 0, and so is every factor
    that [Attack] returns together with a nil error. *)
Theorem slowdowns_nonnegative :
  (forall (a o : appCategory) (row : gmap appCategory float) (v : float),
     slowDowns !! a = Some row -> row !! o = Some v ->
     (0 <=? v)%float = true) /\
  (forall (m : option HardcodedSlowDowns) (attacker occupant : option Pod)
          (v : float),
     Attack m attacker occupant = Returns (v, None) ->
     (0 <=? v)%float = true).
Proof.
  split.
  - exact (cells_lookup _ slowDowns_nonneg).
  - intros [hsd | ] [att | ] [occ | ] v H; try discriminate H.
    2: { unfold Attack in H.
         destruct (parseAppCategory _) in H. discriminate H. }
    destruct (parseAppCategory (label hsd att)) as [a [e | ]] eqn:E.
    + rewrite (Attack_failed_attacker hsd att occ a e E) in H.
      discriminate H.
    + rewrite (Attack_known_attacker hsd att occ a E) in H.
      inversion H. apply attack_nonneg.
      exact (parseAppCategory_nil_error _ _ E).
Qed.

End ModelFacts.

(** ** Calls in sequence *)

Section Sequences.

(** A run of two sequences is the run of the first, then of the second from
    the world the first left. *)
Lemma run_app (xs ys : list call) (w : world) :
  run (xs ++ ys)%list w =
    match run xs w with
    | (Returns rs, w1) =>
        match run ys w1 with
        | (Returns rs', w2) => (Returns (rs ++ rs')%list, w2)
        | (Panics, w2) => (Panics, w2)
        end
    | (Panics, w1) => (Panics, w1)
    end.
Proof.
  revert w. induction xs as [ | c xs IH]; intros w; simpl.
  - destruct (run ys w) as [[rs' | ] w2]; reflexivity.
  - destruct (perform c w) as [[r | ] w1]; [ | reflexivity].
    rewrite IH.
    destruct (run xs w1) as [[rs | ] w2]; [ | reflexivity].
    destruct (run ys w2) as [[rs' | ] w3]; reflexivity.
Qed.

(** A run that returns answers every call. *)
Lemma run_length (cs : list call) (w w' : world) (rs : list reply) :
  run cs w = (Returns rs, w') -> length rs = length cs.
Proof.
  revert w rs. induction cs as [ | c cs IH]; intros w rs H; simpl in H.
  - inversion H. reflexivity.
  - destruct (perform c w) as [[r | ] w1]; [ | discriminate H].
    destruct (run cs w1) as [[rs1 | ] w2] eqn:E; [ | discriminate H].
    inversion H; subst. simpl. f_equal. exact (IH w1 rs1 E).
Qed.

(** The package variable is assigned by no call: it holds the literal for
    as long as the program runs. *)
Lemma perform_keeps_slowDowns (c : call) (w : world) :
  slowDownsVar (snd (perform c w)) = slowDownsVar w.
Proof.
  destruct c as [key | m attacker occupant | m]; simpl; [reflexivity | | reflexivity].
  unfold AttackIn.
  destruct occupant as [occ | ]; [ | reflexivity].
  destruct (m ≫= _) as [hsd | ]; [ | reflexivity].
  destruct (parseAppCategory _) as [o eo].
  destruct attacker as [att | ]; [ | reflexivity].
  destruct (parseAppCategory _) as [a [e | ]]; reflexivity.
Qed.

Lemma run_keeps_slowDowns (cs : list call) (w : world) :
  slowDownsVar (snd (run cs w)) = slowDownsVar w.
Proof.
  revert w. induction cs as [ | c cs IH]; intros w; simpl; [reflexivity | ].
  pose proof (perform_keeps_slowDowns c w) as P.
  destruct (perform c w) as [[r | ] w1]; simpl in P; [ | exact P].
  pose proof (IH w1) as Q.
  destruct (run cs w1) as [[rs | ] w2]; simpl in Q |- *; congruence.
Qed.

(** [AttackIn] on an allocated receiver, in a world whose variable holds
    the literal, is [Attack] on that receiver. *)
Lemma AttackIn_Attack (l : nat) (hsd : HardcodedSlowDowns)
    (attacker occupant : option Pod) (w : world) :
  objects w !! l = Some hsd -> slowDownsVar w = slowDowns ->
  AttackIn (Some l) attacker occupant w =
    (Attack (Some hsd) attacker occupant, w).
Proof.
  intros O T. unfold AttackIn, Attack, attackIn, attack. simpl.
  rewrite O, T. reflexivity.
Qed.

(** [New] does change the world: the runs below are not over one fixed
    state. *)
Example run_New_allocates :
  run [CallNew "acti"; CallNew "tier"] initial =
    (Returns [NewReply (Some 0%nat); NewReply (Some 1%nat)],
     {| slowDownsVar := slowDowns;
        objects := [ {| actiLabelKey := "acti" |};
                     {| actiLabelKey := "tier" |} ] |}).
Proof. reflexivity. Qed.

(** C9. [ToInt64Multiplier] is a pure accessor. In every world and on every
    receiver, nil or not, allocated or not, the call returns 100.0 (it
    never panics and has no error result) and leaves the world as it found
    it. Hence after any sequence of calls that returned, it returns 100.0;
    and putting the call anywhere into a sequence of calls changes neither
    the other replies, nor the final world, nor whether the program
    panics. *)
Theorem ToInt64Multiplier_fixed :
  (forall m : option HardcodedSlowDowns, ToInt64Multiplier m = 100%float) /\
  (forall (m : pointer) (w : world),
     ToInt64MultiplierIn m w = (Returns 100%float, w)) /\
  (forall (m : pointer) (before : list call) (w w' : world)
          (rs : list reply),
     run before w = (Returns rs, w') ->
     run (before ++ [CallToInt64Multiplier m])%list w =
       (Returns (rs ++ [MultiplierReply 100%float])%list, w')) /\
  (forall (m : pointer) (before after : list call) (w w' : world)
          (rs : list reply),
     run (before ++ after)%list w = (Returns rs, w') ->
     run (before ++ CallToInt64Multiplier m :: after)%list w =
       (Returns (take (length before) rs ++
                 MultiplierReply 100%float :: drop (length before) rs)%list,
        w')) /\
  (forall (m : pointer) (before after : list call) (w w' : world),
     run (before ++ after)%list w = (Panics, w') ->
     run (before ++ CallToInt64Multiplier m :: after)%list w = (Panics, w')).
Proof.
  split; [intros m; destruct m; reflexivity | ].
  split; [intros m w; reflexivity | ].
  split; [ | split].
  - intros m before w w' rs H.
    rewrite run_app, H. reflexivity.
  - intros m before after w w' rs H.
    rewrite run_app in H. rewrite run_app.
    destruct (run before w) as [[r1 | ] w1] eqn:B; [ | discriminate H].
    simpl.
    destruct (run after w1) as [[r2 | ] w2]; [ | discriminate H].
    inversion H; subst.
    rewrite <- (run_length before w w1 r1 B).
    rewrite take_app_length, drop_app_length. reflexivity.
  - intros m before after w w' H.
    rewrite run_app in H. rewrite run_app.
    destruct (run before w) as [[r1 | ] w1]; [ | exact H].
    simpl.
    destruct (run after w1) as [[r2 | ] w2]; [discriminate H | exact H].
Qed.

End Sequences.

(** ** Concrete runs *)

Lemma ToInt64Multiplier_fixed_witness :
  run [CallNew "acti";
       CallAttack (Some 0%nat) (Some (labelled "acti" "catA"))
                  (Some (labelled "acti" "catB"));
       CallToInt64Multiplier None] initial =
    (Returns [NewReply (Some 0%nat); AttackReply (2.43%float, None);
              MultiplierReply 100%float],
     {| slowDownsVar := slowDowns; objects := [model] |}) /\
  run [CallNew "acti";
       CallToInt64Multiplier (Some 7%nat);
       CallAttack (Some 0%nat) (Some (labelled "acti" "catA"))
                  (Some (labelled "acti" "catB"))] initial =
    (Returns [NewReply (Some 0%nat); MultiplierReply 100%float;
              AttackReply (2.43%float, None)],
     {| slowDownsVar := slowDowns; objects := [model] |}) /\
  run [CallToInt64Multiplier (Some 0%nat); CallAttack None None None] initial =
    (Panics, initial).
Proof.
  destruct ToInt64Multiplier_fixed as (_ & _ & after & inside & panics).
  split; [ | split].
  - apply (after None
             [CallNew "acti";
              CallAttack (Some 0%nat) (Some (labelled "acti" "catA"))
                         (Some (labelled "acti" "catB"))]
             initial {| slowDownsVar := slowDowns; objects := [model] |}
             [NewReply (Some 0%nat); AttackReply (2.43%float, None)]).
    reflexivity.
  - apply (inside (Some 7%nat) [CallNew "acti"]
             [CallAttack (Some 0%nat) (Some (labelled "acti" "catA"))
                         (Some (labelled "acti" "catB"))]
             initial {| slowDownsVar := slowDowns; objects := [model] |}
             [NewReply (Some 0%nat); AttackReply (2.43%float, None)]).
    reflexivity.
  - apply (panics (Some 0%nat) [] [CallAttack None None None] initial initial).
    reflexivity.
Defined.

Lemma Attack_table_complete_witness :
  (exists (row : gmap appCategory float) (v : float),
     slowDowns !! catE = Some row /\ row !! catA = Some v /\
     Attack (Some model) (Some (labelled "acti" "catE"))
            (Some (labelled "acti" "catA")) = Returns (v, None)) /\
  Attack (Some model) (Some (labelled "acti" "catA"))
         (Some (labelled "acti" "catB")) = Returns (2.43%float, None) /\
  Attack (Some model) (Some (labelled "acti" "catB"))
         (Some (labelled "acti" "catD")) = Returns (3.10%float, None).
Proof.
  split; [ | split].
  - apply (proj1 (Attack_table_complete model (labelled "acti" "catE")
                    (labelled "acti" "catA")) catE catA);
      simpl; try tauto; reflexivity.
  - apply (proj1 (proj2 (Attack_table_complete model
                           (labelled "acti" "catA")
                           (labelled "acti" "catB")))); reflexivity.
  - apply (proj2 (proj2 (Attack_table_complete model
                           (labelled "acti" "catB")
                           (labelled "acti" "catD")))); reflexivity.
Defined.

Lemma Attack_validates_attacker_witness :
  Attack (Some model) (Some (labelled "acti" "unknownCat"))
         (Some (labelled "acti" "catA")) =
    Returns ((-1)%float, Some "unknown application category: 'unknownCat'") /\
  Attack (Some model) (Some (labelled "other" "catA"))
         (Some (labelled "acti" "catA")) =
    Returns ((-1)%float, Some "unknown application category: ''") /\
  exists v : float,
    Attack (Some model) (Some (labelled "acti" "catC"))
           (Some (labelled "acti" "catA")) = Returns (v, None).
Proof.
  split; [ | split].
  - apply (proj1 (proj2 (Attack_validates_attacker model
                           (labelled "acti" "unknownCat")
                           (labelled "acti" "catA")))); reflexivity.
  - apply (proj1 (Attack_validates_attacker model
                    (labelled "other" "catA") (labelled "acti" "catA"))).
    vm_compute. intros [H | [H | [H | [H | [H | []]]]]]; discriminate H.
  - apply (proj2 (proj2 (Attack_validates_attacker model
                           (labelled "acti" "catC")
                           (labelled "acti" "catA")))).
    vm_compute. tauto.
Defined.

Lemma Attack_tolerates_occupant_witness :
  exists v : float,
    Attack (Some model) (Some (labelled "acti" "catB"))
           (Some (labelled "acti" "bogus")) = Returns (v, None).
Proof.
  apply (Attack_tolerates_occupant model (labelled "acti" "catB")
           (labelled "acti" "bogus")).
  vm_compute. tauto.
Defined.

Lemma Attack_unknown_occupant_zero_witness :
  Attack (Some model) (Some (labelled "acti" "catB"))
         (Some (labelled "acti" "bogus")) = Returns (0%float, None).
Proof.
  destruct (Attack_unknown_occupant_zero model (labelled "acti" "catB")
              (labelled "acti" "bogus")) as (a & row & _ & _ & _ & _ & H).
  - vm_compute. tauto.
  - vm_compute. intros [H | [H | [H | [H | [H | []]]]]]; discriminate H.
  - exact H.
Defined.

Lemma Attack_directional_witness :
  Attack (Some model) (Some (labelled "acti" "catA"))
         (Some (labelled "acti" "catB")) = Returns (2.43%float, None) /\
  Attack (Some model) (Some (labelled "acti" "catB"))
         (Some (labelled "acti" "catA")) = Returns (2.19%float, None).
Proof.
  destruct (Attack_directional model (labelled "acti" "catA")
              (labelled "acti" "catB")) as (H1 & H2 & _).
  - reflexivity.
  - reflexivity.
  - split; [exact H1 | exact H2].
Defined.

Lemma slowdowns_nonnegative_witness :
  (0 <=? 1.10)%float = true /\ (0 <=? 3.15)%float = true.
Proof.
  split.
  - apply (proj1 slowdowns_nonnegative catD catE
             {[ catA := 1.47%float; catB := 1.24%float; catC := 1.76%float;
                catD := 2.25%float; catE := 1.10%float ]});
      reflexivity.
  - apply (proj2 slowdowns_nonnegative (Some model)
             (Some (labelled "acti" "catE")) (Some (labelled "acti" "catA")));
      reflexivity.
Defined.


(** * Further properties of the registry *)

Section RegistryMore.

Lemma String_outside (c : appCategory) :
  ~ In c categories -> String c = "UNKNOWN".
Proof.
  intros N. unfold String.
  destruct (Z.eqb_spec c catA) as [-> | _]; [exfalso; apply N; simpl; tauto | ].
  destruct (Z.eqb_spec c catB) as [-> | _]; [exfalso; apply N; simpl; tauto | ].
  destruct (Z.eqb_spec c catC) as [-> | _]; [exfalso; apply N; simpl; tauto | ].
  destruct (Z.eqb_spec c catD) as [-> | _]; [exfalso; apply N; simpl; tauto | ].
  destruct (Z.eqb_spec c catE) as [-> | _]; [exfalso; apply N; simpl; tauto | ].
  reflexivity.
Qed.

Lemma String_canonical (c : appCategory) :
  In c categories -> In (String c) canonicalNames.
Proof. intros H. unfold canonicalNames. apply in_map. exact H. Qed.

Lemma UNKNOWN_not_canonical : ~ In "UNKNOWN" canonicalNames.
Proof.
  rewrite canonicalNames_eq. simpl.
  intros [H | [H | [H | [H | [H | []]]]]]; discriminate H.
Qed.

Lemma length_append (s t : string) :
  String.length (s ++ t) = (String.length s + String.length t)%nat.
Proof. induction s as [ | ch s IH]; simpl; [reflexivity | now rewrite IH]. Qed.

Lemma canonical_length (s : string) :
  In s canonicalNames -> String.length s = 4%nat.
Proof.
  rewrite canonicalNames_eq. simpl.
  intros [<- | [<- | [<- | [<- | [<- | []]]]]]; reflexivity.
Qed.

(** The two results of [parseAppCategory] agree: the error is nil exactly
    when the category is one of the five, and it is non-nil exactly when
    the category is -1. A caller that drops the error, as [Attack] does for
    the occupant, can still tell a failed parse by the value -1. *)
Theorem parse_value_tells_error (s : string) :
  (snd (parseAppCategory s) = None <-> In (fst (parseAppCategory s)) categories) /\
  (snd (parseAppCategory s) <> None <-> fst (parseAppCategory s) = -1).
Proof.
  destruct (parseAppCategory_cases s)
    as [[_ E] | [[_ E] | [[_ E] | [[_ E] | [[_ E] | [_ E]]]]]];
    rewrite E; simpl; (split; split; intros H);
    try tauto; try discriminate H; try reflexivity; try congruence.
  destruct H as [H | [H | [H | [H | [H | []]]]]]; discriminate H.
Qed.

Lemma parse_value_tells_error_witness :
  fst (parseAppCategory "catE") = catE /\ fst (parseAppCategory "cate") = -1.
Proof.
  split.
  - reflexivity.
  - apply (proj1 (proj2 (parse_value_tells_error "cate"))). discriminate.
Defined.

(** Rendering what was parsed: on every string, [String] of the parsed
    category gives the string back when it is a canonical name, and
    "UNKNOWN" otherwise (the -1 of a failed parse has no name). *)
Theorem render_of_parse (s : string) :
  (In s canonicalNames -> String (fst (parseAppCategory s)) = s) /\
  (~ In s canonicalNames -> String (fst (parseAppCategory s)) = "UNKNOWN").
Proof.
  split.
  - intros K. destruct (parseAppCategory_known s K) as (c & _ & -> & E).
    rewrite E. reflexivity.
  - intros N. rewrite (parseAppCategory_unknown s N). reflexivity.
Qed.

Lemma render_of_parse_witness :
  String (fst (parseAppCategory "catB")) = "catB" /\
  String (fst (parseAppCategory "pod")) = "UNKNOWN".
Proof.
  split.
  - apply (proj1 (render_of_parse "catB")). vm_compute. tauto.
  - apply (proj2 (render_of_parse "pod")). vm_compute.
    intros [H | [H | [H | [H | [H | []]]]]]; discriminate H.
Defined.

(** The round trip stops at the closed set: for a value outside it, the
    rendered string "UNKNOWN" is rejected by [parseAppCategory], with the
    error quoting "UNKNOWN"; so parsing a rendered value succeeds exactly
    for the five categories. *)
Theorem parse_of_render (c : appCategory) :
  (~ In c categories ->
   parseAppCategory (String c) =
     (-1, Some "unknown application category: 'UNKNOWN'")) /\
  (snd (parseAppCategory (String c)) = None <-> In c categories).
Proof.
  assert (O : ~ In c categories ->
              parseAppCategory (String c) =
                (-1, Some "unknown application category: 'UNKNOWN'")).
  { intros N. rewrite (String_outside c N). reflexivity. }
  split; [exact O | ]. split.
  - intros E. destruct (in_dec Z.eq_dec c categories) as [K | N]; [exact K | ].
    rewrite (O N) in E. discriminate E.
  - intros K. rewrite (parseAppCategory_String c K). reflexivity.
Qed.

Lemma parse_of_render_witness :
  parseAppCategory (String 7) =
    (-1, Some "unknown application category: 'UNKNOWN'") /\
  In catB categories.
Proof.
  split.
  - apply (proj1 (parse_of_render 7)). simpl.
    intros [H | [H | [H | [H | [H | []]]]]]; discriminate H.
  - apply (proj1 (proj2 (parse_of_render catB))). reflexivity.
Defined.

(** Distinct categories have distinct names: if a category of the closed
    set renders like any other value of the type, the two are equal. *)
Theorem String_injective_on_categories (c d : appCategory) :
  In c categories -> String c = String d -> c = d.
Proof.
  intros K E.
  destruct (in_dec Z.eq_dec d categories) as [Kd | Nd].
  - pose proof (parseAppCategory_String c K) as Pc.
    pose proof (parseAppCategory_String d Kd) as Pd.
    rewrite E in Pc. congruence.
  - exfalso. apply UNKNOWN_not_canonical.
    rewrite <- (String_outside d Nd), <- E. apply String_canonical. exact K.
Qed.

Lemma String_injective_on_categories_witness : catC = 2.
Proof.
  apply (String_injective_on_categories catC 2); [simpl; tauto | reflexivity].
Defined.

(** The match is on the whole string: a canonical name with anything
    appended or prepended is rejected (no trimming, no prefix match). *)
Theorem parse_rejects_padding (s t : string) :
  In s canonicalNames -> t <> "" ->
  parseAppCategory (s ++ t) = (-1, Some (unknownCategory (s ++ t))) /\
  parseAppCategory (t ++ s) = (-1, Some (unknownCategory (t ++ s))).
Proof.
  intros K T.
  assert (L : (0 < String.length t)%nat).
  { destruct t; [congruence | simpl; lia]. }
  pose proof (canonical_length s K) as Ls.
  split; apply parseAppCategory_unknown; intros K';
    apply canonical_length in K'; rewrite length_append in K'; lia.
Qed.

Lemma parse_rejects_padding_witness :
  parseAppCategory "catA " =
    (-1, Some "unknown application category: 'catA '") /\
  parseAppCategory " catA" =
    (-1, Some "unknown application category: ' catA'").
Proof.
  apply (parse_rejects_padding "catA" " ").
  - vm_compute. tauto.
  - discriminate.
Defined.

End RegistryMore.

(** * Further properties of the slowdown table *)

Section TableMore.

(** A map literal over the five categories has no other key. *)
Lemma five_keys_outside {V : Type} (vA vB vC vD vE : V) (k : appCategory) :
  ~ In k categories ->
  ({[ catA := vA; catB := vB; catC := vC; catD := vD; catE := vE ]}
     : gmap appCategory V) !! k = None.
Proof.
  intros N.
  assert (catA <> k /\ catB <> k /\ catC <> k /\ catD <> k /\ catE <> k)
    as (nA & nB & nC & nD & nE).
  { repeat split; intros <-; apply N; simpl; tauto. }
  rewrite !lookup_insert_ne by assumption.
  apply lookup_singleton_ne. assumption.
Qed.

Lemma slowDowns_row_outside (a : appCategory) :
  ~ In a categories -> slowDowns !! a = None.
Proof. intros N. unfold slowDowns. apply five_keys_outside. exact N. Qed.

Lemma slowDowns_cell_outside :
  map_Forall
    (fun _ (row : gmap appCategory float) =>
       forall o : appCategory, ~ In o categories -> row !! o = None)
    slowDowns.
Proof.
  unfold slowDowns.
  repeat match goal with
    | |- map_Forall _ (<[ _ := _ ]> _) => apply map_Forall_insert_2
    | |- map_Forall _ {[ _ := _ ]} => apply map_Forall_singleton
    | |- forall o : appCategory, _ => intros o N; apply five_keys_outside; exact N
    end.
Qed.

Lemma slowDowns_range :
  cells (fun v => (1.10 <=? v)%float = true /\ (v <=? 3.15)%float = true).
Proof.
  unfold cells, slowDowns.
  repeat match goal with
    | |- map_Forall _ (<[ _ := _ ]> _) => apply map_Forall_insert_2
    | |- map_Forall _ {[ _ := _ ]} => apply map_Forall_singleton
    | |- _ /\ _ => split; reflexivity
    end.
Qed.

Lemma attack_inside_range (a o : appCategory) :
  In a categories -> In o categories ->
  (1.10 <=? attack a o)%float = true /\ (attack a o <=? 3.15)%float = true.
Proof.
  intros Ha Ho.
  destruct (slowDowns_dense a o Ha Ho) as (row & v & Hrow & Hv & _).
  unfold attack, index. rewrite Hrow, Hv.
  exact (cells_lookup _ slowDowns_range a o row v Hrow Hv).
Qed.

Lemma attack_outside_zero (a o : appCategory) :
  ~ In a categories \/ ~ In o categories -> attack a o = 0%float.
Proof.
  intros N. unfold attack, index at 2.
  destruct (slowDowns !! a) as [row | ] eqn:Hrow.
  - destruct N as [Na | No].
    + rewrite (slowDowns_row_outside a Na) in Hrow. discriminate Hrow.
    + unfold index. rewrite (slowDowns_cell_outside a row Hrow o No).
      reflexivity.
  - unfold index. rewrite lookup_empty. reflexivity.
Qed.

Lemma attack_inside_nonzero (a o : appCategory) :
  In a categories -> In o categories -> attack a o <> 0%float.
Proof.
  intros Ha Ho Z.
  destruct (attack_inside_range a o Ha Ho) as [L _].
  rewrite Z in L. discriminate L.
Qed.

(** [slowDowns] has a row exactly for the five categories, and every row
    has a cell exactly for the five categories: 25 cells and no other key
    at either level. *)
Theorem slowDowns_keys (a o : appCategory) :
  (is_Some (slowDowns !! a) <-> In a categories) /\
  (forall row : gmap appCategory float,
     slowDowns !! a = Some row ->
     (is_Some (row !! o) <-> In o categories)).
Proof.
  split.
  - split.
    + intros [row Hrow].
      destruct (in_dec Z.eq_dec a categories) as [K | N]; [exact K | ].
      rewrite (slowDowns_row_outside a N) in Hrow. discriminate Hrow.
    + intros K. destruct (slowDowns_dense a catA K) as (row & _ & Hrow & _).
      * simpl. tauto.
      * exists row. exact Hrow.
  - intros row Hrow. split.
    + intros [v Hv].
      destruct (in_dec Z.eq_dec o categories) as [K | N]; [exact K | ].
      rewrite (slowDowns_cell_outside a row Hrow o N) in Hv. discriminate Hv.
    + intros Ko.
      assert (Ka : In a categories).
      { destruct (in_dec Z.eq_dec a categories) as [K | N]; [exact K | ].
        rewrite (slowDowns_row_outside a N) in Hrow. discriminate Hrow. }
      destruct (slowDowns_dense a o Ka Ko) as (row' & v & Hrow' & Hv & _).
      exists v. congruence.
Qed.

Lemma slowDowns_keys_witness :
  In catC categories /\ ~ is_Some (slowDowns !! 5).
Proof.
  split.
  - apply (proj1 (slowDowns_keys catC catA)). eexists. reflexivity.
  - intros S. apply (proj1 (slowDowns_keys 5 catA)) in S. simpl in S.
    destruct S as [H | [H | [H | [H | [H | []]]]]]; discriminate H.
Defined.

(** [attack] on any two values of the type: between two categories of the
    closed set the slowdown lies in [1.10, 3.15]; as soon as one of the two
    is outside the closed set, a map read misses and the result is the zero
    value 0.0. So 0.0 is returned exactly when a category is unknown. *)
Theorem attack_zero_iff_outside (a o : appCategory) :
  (In a categories -> In o categories ->
   (1.10 <=? attack a o)%float = true /\ (attack a o <=? 3.15)%float = true) /\
  (attack a o = 0%float <-> ~ In a categories \/ ~ In o categories).
Proof.
  split; [apply attack_inside_range | ]. split.
  - intros Z.
    destruct (in_dec Z.eq_dec a categories) as [Ka | Na]; [ | left; exact Na].
    destruct (in_dec Z.eq_dec o categories) as [Ko | No]; [ | right; exact No].
    exfalso. exact (attack_inside_nonzero a o Ka Ko Z).
  - apply attack_outside_zero.
Qed.

Lemma attack_zero_iff_outside_witness :
  (1.10 <=? attack catD catE)%float = true /\ attack 9 catA = 0%float /\
  attack catA (-1) = 0%float.
Proof.
  split; [ | split].
  - apply (proj1 (attack_zero_iff_outside catD catE)); simpl; tauto.
  - apply (proj2 (attack_zero_iff_outside 9 catA)). left. simpl.
    intros [H | [H | [H | [H | [H | []]]]]]; discriminate H.
  - apply (proj2 (attack_zero_iff_outside catA (-1))). right. simpl.
    intros [H | [H | [H | [H | [H | []]]]]]; discriminate H.
Defined.

(** The table is symmetric nowhere off its diagonal: for two categories of
    the closed set, the slowdown each inflicts on the other compares equal
    only when the two are the same category. *)
Theorem attack_symmetric_only_on_diagonal (a o : appCategory) :
  In a categories -> In o categories ->
  ((attack a o =? attack o a)%float = true <-> a = o).
Proof.
  intros Ha Ho. simpl in Ha, Ho.
  destruct Ha as [<- | [<- | [<- | [<- | [<- | []]]]]];
    destruct Ho as [<- | [<- | [<- | [<- | [<- | []]]]]];
    (split; [intros H; try reflexivity; vm_compute in H; discriminate H
            | intros H; try discriminate H; reflexivity]).
Qed.

Lemma attack_symmetric_only_on_diagonal_witness :
  (attack catC catE =? attack catE catC)%float = true <-> catC = catE.
Proof.
  apply (attack_symmetric_only_on_diagonal catC catE); simpl; tauto.
Defined.

End TableMore.

(** * Further properties of the interference model *)

Section ModelMore.

Lemma Attack_returns (hsd : HardcodedSlowDowns) (att occ : Pod) :
  exists r : float * option error,
    Attack (Some hsd) (Some att) (Some occ) = Returns r.
Proof.
  destruct (parseAppCategory (label hsd att)) as [a [e | ]] eqn:E.
  - eexists. exact (Attack_failed_attacker hsd att occ a e E).
  - eexists. exact (Attack_known_attacker hsd att occ a E).
Qed.

Lemma label_missing (hsd : HardcodedSlowDowns) (pod : Pod) :
  Labels pod !! actiLabelKey hsd = None -> label hsd pod = "".
Proof. intros H. unfold label, index. rewrite H. reflexivity. Qed.

Lemma empty_not_canonical : ~ In "" canonicalNames.
Proof.
  rewrite canonicalNames_eq. simpl.
  intros [H | [H | [H | [H | [H | []]]]]]; discriminate H.
Qed.

(** [Attack] panics exactly when it is handed a nil pointer, as receiver,
    attacker or occupant; on three non-nil pointers it always returns, and
    the receiver built by [New] is never nil. *)
Theorem Attack_panics_iff_nil
    (m : option HardcodedSlowDowns) (attacker occupant : option Pod) :
  (Attack m attacker occupant = Panics <->
   m = None \/ attacker = None \/ occupant = None) /\
  (forall (key : string) (att occ : Pod),
     Attack (New key) (Some att) (Some occ) <> Panics).
Proof.
  split.
  - destruct m as [hsd | ], attacker as [att | ], occupant as [occ | ].
    + destruct (Attack_returns hsd att occ) as [r ->].
      split; [discriminate | ]. intros [H | [H | H]]; discriminate H.
    + split; [tauto | reflexivity].
    + split; [tauto | ]. intros _. unfold Attack.
      destruct (parseAppCategory _). reflexivity.
    + split; [tauto | reflexivity].
    + split; [tauto | reflexivity].
    + split; [tauto | reflexivity].
    + split; [tauto | reflexivity].
    + split; [tauto | reflexivity].
  - intros key att occ. unfold New.
    destruct (Attack_returns {| actiLabelKey := key |} att occ) as [r ->].
    discriminate.
Qed.

Lemma Attack_panics_iff_nil_witness :
  Attack (Some model) None (Some (labelled "acti" "catA")) = Panics.
Proof.
  apply (proj1 (Attack_panics_iff_nil (Some model) None
                  (Some (labelled "acti" "catA")))).
  right. left. reflexivity.
Defined.

(** A pod that does not carry the label key reads as the empty label: as
    attacker it makes [Attack] return -1 and the error quoting the empty
    string, whatever the occupant; as occupant of an attacker with a
    canonical label it makes [Attack] return 0.0 with a nil error. *)
Theorem Attack_missing_label (key : string) (att occ : Pod) :
  (Labels att !! key = None ->
   Attack (New key) (Some att) (Some occ) =
     Returns ((-1)%float, Some "unknown application category: ''")) /\
  (Labels occ !! key = None ->
   In (label {| actiLabelKey := key |} att) canonicalNames ->
   Attack (New key) (Some att) (Some occ) = Returns (0%float, None)).
Proof.
  unfold New. set (hsd := {| actiLabelKey := key |}). split.
  - intros M. apply (Attack_failed_attacker hsd att occ (-1)).
    rewrite (label_missing hsd att M). reflexivity.
  - intros M K.
    destruct (parseAppCategory_known _ K) as (a & Ha & _ & E).
    rewrite (Attack_known_attacker hsd att occ a E).
    rewrite (label_missing hsd occ M). simpl.
    rewrite attack_outside_zero; [reflexivity | ].
    right. simpl. intros [H | [H | [H | [H | [H | []]]]]]; discriminate H.
Qed.

Lemma Attack_missing_label_witness :
  Attack (New "acti") (Some {| Labels := ∅ |}) (Some (labelled "acti" "catA")) =
    Returns ((-1)%float, Some "unknown application category: ''") /\
  Attack (New "acti") (Some (labelled "acti" "catA"))
         (Some (labelled "app" "catA")) = Returns (0%float, None).
Proof.
  split.
  - apply (proj1 (Attack_missing_label "acti" {| Labels := ∅ |}
                    (labelled "acti" "catA"))). reflexivity.
  - apply (proj2 (Attack_missing_label "acti" (labelled "acti" "catA")
                    (labelled "app" "catA"))).
    + reflexivity.
    + vm_compute. tauto.
Defined.

(** [Attack] reads one label of each pod, the one under the key given to
    [New]: two pairs of pods that agree on that label get the same result,
    so setting any other label on either pod changes nothing. *)
Theorem Attack_reads_only_key (key : string) (att att' occ occ' : Pod) :
  Labels att !! key = Labels att' !! key ->
  Labels occ !! key = Labels occ' !! key ->
  Attack (New key) (Some att) (Some occ) =
    Attack (New key) (Some att') (Some occ') /\
  forall k v : string, k <> key ->
    Attack (New key) (Some {| Labels := <[ k := v ]> (Labels att) |})
           (Some {| Labels := <[ k := v ]> (Labels occ) |}) =
      Attack (New key) (Some att) (Some occ).
Proof.
  intros Ha Ho. split.
  - unfold New, Attack, index. simpl. rewrite Ha, Ho. reflexivity.
  - intros k v N. unfold New, Attack, index. simpl.
    rewrite !lookup_insert_ne by exact N. reflexivity.
Qed.

Lemma Attack_reads_only_key_witness :
  Attack (New "acti")
         (Some {| Labels := {[ "acti" := "catB"; "tier" := "web" ]} |})
         (Some {| Labels := {[ "acti" := "catD"; "app" := "db" ]} |}) =
    Attack (New "acti") (Some (labelled "acti" "catB"))
           (Some (labelled "acti" "catD")).
Proof.
  apply (Attack_reads_only_key "acti"
           {| Labels := {[ "acti" := "catB"; "tier" := "web" ]} |}
           (labelled "acti" "catB")
           {| Labels := {[ "acti" := "catD"; "app" := "db" ]} |}
           (labelled "acti" "catD")); reflexivity.
Defined.

(** Every error that [Attack] returns comes from the attacker's label:
    the factor beside it is -1, all three pointers were non-nil, the
    attacker's label is not a canonical name, and the message quotes that
    label. The occupant never causes an error. *)
Theorem Attack_error_shape
    (m : option HardcodedSlowDowns) (attacker occupant : option Pod)
    (v : float) (e : error) :
  Attack m attacker occupant = Returns (v, Some e) ->
  v = (-1)%float /\
  exists (hsd : HardcodedSlowDowns) (att occ : Pod),
    m = Some hsd /\ attacker = Some att /\ occupant = Some occ /\
    ~ In (label hsd att) canonicalNames /\
    e = "unknown application category: '" ++ label hsd att ++ "'".
Proof.
  destruct m as [hsd | ], attacker as [att | ], occupant as [occ | ];
    intros H; try discriminate H.
  2: { unfold Attack in H. destruct (parseAppCategory _) in H. discriminate H. }
  destruct (parseAppCategory_cases (label hsd att))
    as [[_ E] | [[_ E] | [[_ E] | [[_ E] | [[_ E] | [N E]]]]]];
    try (rewrite (Attack_known_attacker hsd att occ _ E) in H; discriminate H).
  rewrite (Attack_failed_attacker hsd att occ _ _ E) in H.
  inversion H. split; [reflexivity | ].
  exists hsd, att, occ. repeat split. exact N.
Qed.

Lemma Attack_error_shape_witness :
  (-1)%float = (-1)%float /\
  exists (hsd : HardcodedSlowDowns) (att occ : Pod),
    Some model = Some hsd /\ Some (labelled "acti" "web") = Some att /\
    Some (labelled "acti" "catA") = Some occ /\
    ~ In (label hsd att) canonicalNames /\
    "unknown application category: 'web'" =
      "unknown application category: '" ++ label hsd att ++ "'".
Proof.
  apply (Attack_error_shape (Some model) (Some (labelled "acti" "web"))
           (Some (labelled "acti" "catA"))).
  reflexivity.
Defined.

(** What a nil error can come with: the factor is 0.0 exactly when the
    attacker's label is canonical and the occupant's is not, and every
    other factor returned with a nil error lies in [1.10, 3.15]. *)
Theorem Attack_zero_iff_unknown_occupant
    (hsd : HardcodedSlowDowns) (att occ : Pod) :
  (Attack (Some hsd) (Some att) (Some occ) = Returns (0%float, None) <->
   In (label hsd att) canonicalNames /\ ~ In (label hsd occ) canonicalNames) /\
  (forall v : float,
     Attack (Some hsd) (Some att) (Some occ) = Returns (v, None) ->
     v = 0%float \/
     ((1.10 <=? v)%float = true /\ (v <=? 3.15)%float = true)).
Proof.
  destruct (parseAppCategory (label hsd att)) as [a [e | ]] eqn:E.
  - rewrite (Attack_failed_attacker hsd att occ a e E).
    split; [split | ].
    + discriminate.
    + intros [K _]. destruct (parseAppCategory_known _ K) as (c & _ & _ & F).
      congruence.
    + discriminate.
  - rewrite (Attack_known_attacker hsd att occ a E).
    pose proof (parseAppCategory_nil_error _ _ E) as Ha.
    assert (Ka : In (label hsd att) canonicalNames).
    { destruct (parseAppCategory_cases (label hsd att))
        as [[-> _] | [[-> _] | [[-> _] | [[-> _] | [[-> _] | [_ F]]]]]];
        try (rewrite canonicalNames_eq; simpl; tauto).
      congruence. }
    destruct (in_dec string_dec (label hsd occ) canonicalNames) as [Ko | No].
    + destruct (parseAppCategory_known _ Ko) as (o & Ho & _ & F).
      rewrite F. simpl. split; [split | ].
      * intros H. inversion H as [Z].
        exfalso. exact (attack_inside_nonzero a o Ha Ho Z).
      * tauto.
      * intros v H. inversion H. right. apply attack_inside_range; assumption.
    + rewrite (parseAppCategory_unknown _ No). simpl.
      rewrite attack_outside_zero.
      * split; [split; [intros _; split; assumption | reflexivity] | ].
        intros v H. inversion H. left. reflexivity.
      * right. simpl. intros [H | [H | [H | [H | [H | []]]]]]; discriminate H.
Qed.

Lemma Attack_zero_iff_unknown_occupant_witness :
  In (label model (labelled "acti" "catA")) canonicalNames /\
  ~ In (label model (labelled "acti" "old")) canonicalNames.
Proof.
  apply (proj1 (proj1 (Attack_zero_iff_unknown_occupant model
                         (labelled "acti" "catA") (labelled "acti" "old")))).
  reflexivity.
Defined.

End ModelMore.
